(** * Linear regression by a Cholesky decomposition of the normal equations

    Shallow embedding of the notebook [02_lin_reg_decomposition.ipynb].

    The notebook is a TensorFlow 1 script.  Each [tf.*] call appends an
    operation to the default graph and hands back a symbolic tensor with a
    static shape; shape errors are raised while the graph is being built
    ([ValueError]).  Nothing is computed until [sess.run(sol2)], which
    evaluates the kernels and may raise [InvalidArgumentError].

    Numbers are the elements of a real closed field [R]: arithmetic is exact,
    the rounding of binary64 is outside the model.  Under exact arithmetic the
    value of a kernel does not depend on the elimination order the library
    picks, so each kernel is given by what it computes:
    - [tf.cholesky]: the unblocked Cholesky recursion, reading the lower
      triangle only and stopping at the first pivot that is not positive;
    - [tf.matrix_solve]: the solution of the square system, refused when the
      matrix is singular (a zero pivot of its LU factorisation). *)

From HB Require Import structures.
From mathcomp Require Import boot order algebra.
From mathcomp Require Import algC.

Set Implicit Arguments.
Unset Strict Implicit.
Unset Printing Implicit Defensive.

Import Order.TTheory GRing.Theory Num.Theory.
Local Open Scope ring_scope.

(** ** Exceptions *)

(** What a kernel complains about when [sess.run] raises
    [tf.errors.InvalidArgumentError]:
    "Cholesky decomposition was not successful. The input might not be valid.",
    "Input matrix is not invertible.", or operands of incompatible shapes. *)
Inductive kernel_failure :=
  | CholeskyNotSuccessful
  | MatrixNotInvertible
  | IncompatibleShapes.

(** [ValueError] is raised while the graph is built (static shape inference)
    and by [sess.run] for a fetch that is not in the graph. *)
Inductive error :=
  | ValueError
  | InvalidArgumentError of kernel_failure.

(** The error taxonomy of the specification, in terms of the exceptions the
    script can raise. *)
Definition DimensionMismatchError : error := ValueError.
Definition NotPositiveDefiniteError : error :=
  InvalidArgumentError CholeskyNotSuccessful.
Definition SingularSystemError : error :=
  InvalidArgumentError MatrixNotInvertible.

Inductive result (T : Type) :=
  | Ok of T
  | Error of error.
Arguments Error {T} e.

Definition is_ok T (r : result T) : bool :=
  if r is Ok _ then true else false.

Section LinearRegression.

Variable R : rcfType.

(** ** Dense rank-2 arrays ([np.matrix], the value of a tensor) *)

Record tensor := Tensor {
  nrows : nat;
  ncols : nat;
  data : 'M[R]_(nrows, ncols)
}.

(** [solution_eval[i][j]]; [None] stands for Python's [IndexError]. *)
Definition getitem (t : tensor) (i j : nat) : option R :=
  match insub i, insub j with
  | Some i', Some j' => Some (data t i' j')
  | _, _ => None
  end.

(** ** Kernels *)

(** The kernels work on the values of the operands, whose shapes they check
    again when [sess.run] reaches them. *)

(** [tf.matmul]. *)
Definition matmul_kernel (a b : tensor) : result tensor :=
  match ncols a =P nrows b with
  | ReflectT e => Ok (Tensor (data a *m castmx (esym e, erefl) (data b)))
  | ReflectF _ => Error (InvalidArgumentError IncompatibleShapes)
  end.

(** [tf.transpose] of a rank-2 tensor. *)
Definition transpose_kernel (a : tensor) : tensor := Tensor (data a)^T.

(** [tf.cholesky]: unblocked Cholesky recursion on the leading pivot.  With
    [M = [a, _; b, C]], the factor is [[sqrt a, 0; b / sqrt a, L']] where
    [L'] factors [C - (b / sqrt a) (b / sqrt a)^T].  Only [a], [b] and,
    recursively, the lower triangle of [C] are read.  [None] is the kernel
    giving up on a pivot that is not positive. *)
Fixpoint cholesky {n : nat} : 'M[R]_n -> option 'M[R]_n :=
  match n with
  | 0 => fun _ => Some 0
  | n'.+1 => fun M : 'M_(1 + n') =>
      let a := M 0 0 in
      if a <= 0 then None
      else
        let l := Num.sqrt a in
        let c := l^-1 *: dlsubmx M in
        if cholesky (drsubmx M - c *m c^T) is Some L'
        then Some (block_mx l%:M 0 c L')
        else None
  end.

Definition cholesky_kernel (a : tensor) : result tensor :=
  match nrows a =P ncols a with
  | ReflectT e =>
      if cholesky (castmx (erefl, esym e) (data a)) is Some L
      then Ok (Tensor L)
      else Error NotPositiveDefiniteError
  | ReflectF _ => Error (InvalidArgumentError IncompatibleShapes)
  end.

(** [tf.matrix_solve]: the solution of the square system [A x = B].  The
    kernel factors [A] by LU with partial pivoting and refuses the matrix
    when a pivot of the factorisation is zero, which in exact arithmetic is
    when [A] is singular; no threshold is involved.  Otherwise the result is
    the one solution of the system, [A^-1 B]. *)
Definition matrix_solve {n m : nat} (A : 'M[R]_n) (B : 'M[R]_(n, m))
  : result 'M[R]_(n, m) :=
  if A \in unitmx then Ok (invmx A *m B) else Error SingularSystemError.

Definition matrix_solve_kernel (a b : tensor) : result tensor :=
  match nrows a =P ncols a, nrows a =P nrows b with
  | ReflectT e1, ReflectT e2 =>
      match matrix_solve (castmx (erefl, esym e1) (data a))
                         (castmx (esym e2, erefl) (data b)) with
      | Ok X => Ok (Tensor X)
      | Error e => Error e
      end
  | _, _ => Error (InvalidArgumentError IncompatibleShapes)
  end.

(** ** The default graph *)

(** An operation of the graph; operands are the indices of earlier nodes. *)
Inductive op :=
  | Const of tensor
  | MatMul of nat & nat
  | Transpose of nat
  | Cholesky of nat
  | MatrixSolve of nat & nat.

Definition graph := seq op.

Definition shape := (nat * nat)%type.

(** A symbolic [tf.Tensor]: the node that produces it and its static shape. *)
Record tf_tensor := TfTensor {
  node_id : nat;
  static_shape : shape
}.

(** Graph construction: the default graph is threaded through, an exception
    ends the script. *)
Definition build (T : Type) := graph -> result (T * graph).

Definition ret T (x : T) : build T := fun g => Ok (x, g).

Definition raise T (e : error) : build T := fun _ => Error e.

Definition bind T U (c : build T) (k : T -> build U) : build U :=
  fun g => match c g with
           | Ok (x, g') => k x g'
           | Error e => Error e
           end.

Local Notation "x <- c ;; k" := (bind c (fun x => k))
  (at level 100, c at next level, right associativity).

(** A new node goes to the end of the graph; its index is its handle. *)
Definition add_op (o : op) (s : shape) : build tf_tensor :=
  fun g => Ok (TfTensor (size g) s, rcons g o).

(** The [tf.*] calls of the script.  Each infers the static shape of its
    result from the static shapes of its operands and raises [ValueError]
    when they do not fit. *)
Definition tf_constant (t : tensor) : build tf_tensor :=
  add_op (Const t) (nrows t, ncols t).

Definition tf_transpose (a : tf_tensor) : build tf_tensor :=
  add_op (Transpose (node_id a)) ((static_shape a).2, (static_shape a).1).

Definition tf_matmul (a b : tf_tensor) : build tf_tensor :=
  if (static_shape a).2 == (static_shape b).1
  then add_op (MatMul (node_id a) (node_id b))
              ((static_shape a).1, (static_shape b).2)
  else raise _ ValueError.

Definition tf_cholesky (a : tf_tensor) : build tf_tensor :=
  if (static_shape a).1 == (static_shape a).2
  then add_op (Cholesky (node_id a)) (static_shape a)
  else raise _ ValueError.

Definition tf_matrix_solve (a b : tf_tensor) : build tf_tensor :=
  if ((static_shape a).1 == (static_shape a).2)
     && ((static_shape a).1 == (static_shape b).1)
  then add_op (MatrixSolve (node_id a) (node_id b))
              ((static_shape a).1, (static_shape b).2)
  else raise _ ValueError.

(** ** The session *)

(** The value of node [i] among the values [vs] of the nodes so far. *)
Definition fetch (vs : seq (result tensor)) (i : nat) : result tensor :=
  nth (Error ValueError) vs i.

(** A failed operand fails the operation. *)
Definition lift1 (f : tensor -> result tensor) (a : result tensor)
  : result tensor :=
  match a with
  | Ok x => f x
  | Error e => Error e
  end.

Definition lift2 (f : tensor -> tensor -> result tensor)
  (a b : result tensor) : result tensor :=
  match a, b with
  | Ok x, Ok y => f x y
  | Error e, _ => Error e
  | _, Error e => Error e
  end.

Definition eval_op (vs : seq (result tensor)) (o : op) : result tensor :=
  match o with
  | Const t => Ok t
  | MatMul i j => lift2 matmul_kernel (fetch vs i) (fetch vs j)
  | Transpose i => lift1 (fun a => Ok (transpose_kernel a)) (fetch vs i)
  | Cholesky i => lift1 cholesky_kernel (fetch vs i)
  | MatrixSolve i j => lift2 matrix_solve_kernel (fetch vs i) (fetch vs j)
  end.

(** The value of every node, oldest first; a node only sees older ones. *)
Definition eval_graph (g : graph) : seq (result tensor) :=
  foldl (fun vs o => rcons vs (eval_op vs o)) [::] g.

(** [sess.run(t)]: the value of [t], or the exception of the first kernel
    that fails on the way to it; the graph is left as it is. *)
Definition sess_run (t : tf_tensor) : build tensor :=
  fun g => match fetch (eval_graph g) (node_id t) with
           | Ok v => Ok (v, g)
           | Error e => Error e
           end.

(** ** The notebook *)

(** Cell 7: the design matrix, x values in column 0, ones in column 1. *)
Definition design_matrix {n : nat} (x_vals : 'cV[R]_n) : 'M[R]_(n, 1 + 1) :=
  row_mx x_vals (const_mx 1).

(** Cell 5: [np.linspace(0, 10, 100)], as a column. *)
Definition x_vals : 'cV[R]_100 := \col_(i < 100) (10 * i%:R / 99).

(** Cells 9 to 15, from the arrays [A] and [y] to [solution_eval].
    [y_tensor] is built and never used; [tf.matmul] is handed the array [y]
    itself and makes a constant of it. *)
Definition pipeline (A y : tensor) : build tensor :=
  A_tensor <- tf_constant A ;;
  y_tensor <- tf_constant y ;;
  tA <- tf_transpose A_tensor ;;
  tA_A <- tf_matmul tA A_tensor ;;
  L <- tf_cholesky tA_A ;;
  tA' <- tf_transpose A_tensor ;;
  y' <- tf_constant y ;;
  tA_y <- tf_matmul tA' y' ;;
  sol1 <- tf_matrix_solve L tA_y ;;
  tL <- tf_transpose L ;;
  sol2 <- tf_matrix_solve tL sol1 ;;
  sess_run sol2.

(** What the script computes when the cells run on the graph [g]. *)
Definition fit_in (g : graph) (A y : tensor) : result tensor :=
  match pipeline A y g with
  | Ok (x, _) => Ok x
  | Error e => Error e
  end.

(** Cell 1 resets the default graph: a fresh run starts from the empty one. *)
Definition fit (A y : tensor) : result tensor := fit_in [::] A y.

(** Cell 17. *)
Definition slope (solution_eval : tensor) : option R :=
  getitem solution_eval 0 0.

Definition y_intercept (solution_eval : tensor) : option R :=
  getitem solution_eval 1 0.


(** ** Reading the graph *)

(** In the graph [g] the symbolic tensor [t] evaluates to [v]. *)
Definition denotes (g : graph) (t : tf_tensor) (v : result tensor) : Prop :=
  (node_id t < size g)%N /\ fetch (eval_graph g) (node_id t) = v.

(** Every tensor of [g] keeps its value in [g']. *)
Definition extends (g g' : graph) : Prop :=
  forall t v, denotes g t v -> denotes g' t v.

(** What [sess.run(sol2)] works out for arrays of matching row count: the
    two solves against the Cholesky factor of the normal matrix. *)
Definition chol_solve n k m (A : 'M[R]_(n, k)) (y : 'M[R]_(n, m))
  : result 'M[R]_(k, m) :=
  if cholesky (A^T *m A) is Some L then
    match matrix_solve L (A^T *m y) with
    | Ok w => matrix_solve L^T w
    | Error e => Error e
    end
  else Error NotPositiveDefiniteError.

Definition to_tensor n m (r : result 'M[R]_(n, m)) : result tensor :=
  match r with
  | Ok X => Ok (Tensor X)
  | Error e => Error e
  end.

(** ** Vocabulary of the specification *)

Definition symmetric n (M : 'M[R]_n) : Prop := M^T = M.

Definition quad_form n (M : 'M[R]_n) (v : 'cV[R]_n) : R :=
  (v^T *m M *m v) 0 0.

Definition positive_definite n (M : 'M[R]_n) : Prop :=
  forall v : 'cV[R]_n, v != 0 -> 0 < quad_form M v.

Definition positive_diagonal n (L : 'M[R]_n) : Prop :=
  forall i, 0 < L i i.

Definition full_column_rank n k (A : 'M[R]_(n, k)) : bool :=
  \rank A == k.

(** ** Triangular solves of the specification *)

(** Forward substitution, rows top to bottom: after [k] steps the rows
    [0 .. k-1] of [z] are set, row [i] from the earlier rows by
    [z_i = (b_i - sum_(j < i) L_ij z_j) / L_ii]. *)
Fixpoint forward_rows n (L : 'M[R]_n) (b : 'cV[R]_n) (k : nat) : 'cV[R]_n :=
  if k is k'.+1 then
    let z := forward_rows L b k' in
    \col_i (if (i : nat) == k'
            then (b i 0 - \sum_(j < n | (j < i)%N) L i j * z j 0) / L i i
            else z i 0)
  else 0.

Definition forwardSolve n (L : 'M[R]_n) (b : 'cV[R]_n) : 'cV[R]_n :=
  forward_rows L b n.

(** Back substitution, rows bottom to top: step [k] sets row [n - k] by
    [x_i = (z_i - sum_(i < j) U_ij x_j) / U_ii]. *)
Fixpoint back_rows n (U : 'M[R]_n) (z : 'cV[R]_n) (k : nat) : 'cV[R]_n :=
  if k is k'.+1 then
    let x := back_rows U z k' in
    \col_i (if (i : nat) == (n - k'.+1)%N
            then (z i 0 - \sum_(j < n | (i < j)%N) U i j * x j 0) / U i i
            else x i 0)
  else 0.

Definition backSolve n (U : 'M[R]_n) (z : 'cV[R]_n) : 'cV[R]_n :=
  back_rows U z n.

(** ** Cell 17, the fitted line *)

(** The entries of a column in order, as [for i in x_vals] walks through
    them. *)
Definition elements n (v : 'cV[R]_n) : seq R := [seq v i 0 | i <- enum 'I_n].

(** The loop [best_fit = []; for i in x_vals: best_fit.append(slope*i +
    y_intercept)]. *)
Definition best_fit (a b : R) (xs : seq R) : seq R :=
  foldl (fun fitted i => rcons fitted (a * i + b)) [::] xs.

(** The sum of the squared entries of a column, [||v||^2]. *)
Definition sum_squares n (v : 'cV[R]_n) : R := \sum_i v i 0 ^+ 2.
(** ** Kernels on arrays of matching shapes *)

Lemma matmul_kernelE m n p (A : 'M[R]_(m, n)) (B : 'M[R]_(n, p)) :
  matmul_kernel (Tensor A) (Tensor B) = Ok (Tensor (A *m B)).
Proof.
rewrite /matmul_kernel /=; case: (n =P n) => [e|]; last by case.
by rewrite castmx_id.
Qed.

Lemma cholesky_kernelE n (M : 'M[R]_n) :
  cholesky_kernel (Tensor M) =
  if cholesky M is Some L then Ok (Tensor L) else Error NotPositiveDefiniteError.
Proof.
rewrite /cholesky_kernel /=; case: (n =P n) => [e|]; last by case.
by rewrite castmx_id.
Qed.

Lemma matrix_solve_kernelE n m (A : 'M[R]_n) (B : 'M[R]_(n, m)) :
  matrix_solve_kernel (Tensor A) (Tensor B) =
  match matrix_solve A B with Ok X => Ok (Tensor X) | Error e => Error e end.
Proof.
rewrite /matrix_solve_kernel /=.
case: (n =P n) => [e|]; last by case.
by rewrite !castmx_id.
Qed.

(** ** Symbolic execution of the graph construction *)

Lemma eval_graph_rcons g o :
  eval_graph (rcons g o) = rcons (eval_graph g) (eval_op (eval_graph g) o).
Proof. by rewrite /eval_graph -cats1 foldl_cat. Qed.

Lemma size_eval_graph g : size (eval_graph g) = size g.
Proof.
elim/last_ind: g => [//|g o IH].
by rewrite eval_graph_rcons !size_rcons IH.
Qed.

Lemma extends_rcons g o : extends g (rcons g o).
Proof.
move=> t v [lt_t <-]; split; first by rewrite size_rcons ltnW.
by rewrite eval_graph_rcons /fetch nth_rcons size_eval_graph lt_t.
Qed.

Lemma add_op_spec o s g :
  exists t g', [/\ add_op o s g = Ok (t, g'), static_shape t = s,
                   denotes g' t (eval_op (eval_graph g) o) & extends g g'].
Proof.
exists (TfTensor (size g) s), (rcons g o); split=> //.
  split; first by rewrite size_rcons /=.
  by rewrite eval_graph_rcons /fetch nth_rcons size_eval_graph ltnn eqxx.
exact: extends_rcons.
Qed.

Lemma tf_constant_spec c g :
  exists t g', [/\ tf_constant c g = Ok (t, g'),
                   static_shape t = (nrows c, ncols c),
                   denotes g' t (Ok c) & extends g g'].
Proof. exact: add_op_spec. Qed.

Lemma tf_transpose_spec a va g :
  denotes g a va ->
  exists t g', [/\ tf_transpose a g = Ok (t, g'),
                   static_shape t = ((static_shape a).2, (static_shape a).1),
                   denotes g' t (lift1 (fun x => Ok (transpose_kernel x)) va)
                 & extends g g'].
Proof.
case=> _ Da; rewrite /tf_transpose.
by have [t [g' [E S D X]]] := add_op_spec (Transpose (node_id a))
     ((static_shape a).2, (static_shape a).1) g; exists t, g'; rewrite -Da.
Qed.

Lemma tf_matmul_spec a b va vb g :
  (static_shape a).2 = (static_shape b).1 ->
  denotes g a va -> denotes g b vb ->
  exists t g', [/\ tf_matmul a b g = Ok (t, g'),
                   static_shape t = ((static_shape a).1, (static_shape b).2),
                   denotes g' t (lift2 matmul_kernel va vb) & extends g g'].
Proof.
move=> /eqP Sab [_ Da] [_ Db]; rewrite /tf_matmul Sab.
by have [t [g' [E S D X]]] := add_op_spec (MatMul (node_id a) (node_id b))
     ((static_shape a).1, (static_shape b).2) g; exists t, g'; rewrite -Da -Db.
Qed.

Lemma tf_matmul_mismatch a b g :
  (static_shape a).2 != (static_shape b).1 ->
  tf_matmul a b g = Error DimensionMismatchError.
Proof. by rewrite /tf_matmul => /negPf ->. Qed.

Lemma tf_cholesky_spec a va g :
  (static_shape a).1 = (static_shape a).2 ->
  denotes g a va ->
  exists t g', [/\ tf_cholesky a g = Ok (t, g'),
                   static_shape t = static_shape a,
                   denotes g' t (lift1 cholesky_kernel va) & extends g g'].
Proof.
move=> /eqP Sa [_ Da]; rewrite /tf_cholesky Sa.
by have [t [g' [E S D X]]] := add_op_spec (Cholesky (node_id a))
     (static_shape a) g; exists t, g'; rewrite -Da.
Qed.

Lemma tf_matrix_solve_spec a b va vb g :
  (static_shape a).1 = (static_shape a).2 ->
  (static_shape a).1 = (static_shape b).1 ->
  denotes g a va -> denotes g b vb ->
  exists t g', [/\ tf_matrix_solve a b g = Ok (t, g'),
                   static_shape t = ((static_shape a).1, (static_shape b).2),
                   denotes g' t (lift2 matrix_solve_kernel va vb)
                 & extends g g'].
Proof.
move=> /eqP Sa /eqP Sab [_ Da] [_ Db]; rewrite /tf_matrix_solve Sa Sab.
by have [t [g' [E S D X]]] := add_op_spec (MatrixSolve (node_id a) (node_id b))
     ((static_shape a).1, (static_shape b).2) g; exists t, g'; rewrite -Da -Db.
Qed.

Lemma sess_run_spec t v g :
  denotes g t v ->
  sess_run t g = match v with Ok x => Ok (x, g) | Error e => Error e end.
Proof. by case=> _ <-. Qed.

(** ** The cells, run on any graph *)

(** The cells are followed one by one; each [tf.*] call is replaced by what
    its specification above says about the node it adds. *)
Lemma fit_in_run g n k n' m (A : 'M[R]_(n, k)) (y : 'M[R]_(n', m)) :
  fit_in g (Tensor A) (Tensor y) =
  match n =P n' with
  | ReflectT e => to_tensor (chol_solve A (castmx (esym e, erefl) y))
  | ReflectF _ => Error DimensionMismatchError
  end.
Proof.
rewrite /fit_in /pipeline /bind.
have [A_t [g1 [-> SA DA X1]]] := tf_constant_spec (Tensor A) g.
have [y_t [g2 [-> _ _ X2]]] := tf_constant_spec (Tensor y) g1.
move/X2 in DA.
have [tA [g3 [-> StA DtA X3]]] := tf_transpose_spec DA.
move/X3 in DA.
have SAA : (static_shape tA).2 = (static_shape A_t).1 by rewrite StA SA.
have [tA_A [g4 [-> SM DM X4]]] := tf_matmul_spec SAA DtA DA.
move/X4 in DA.
have SM' : (static_shape tA_A).1 = (static_shape tA_A).2 by rewrite SM StA SA.
have [L [g5 [-> SL DL X5]]] := tf_cholesky_spec SM' DM.
move/X5 in DA.
have [tA' [g6 [-> StA' DtA' X6]]] := tf_transpose_spec DA.
move/X6 in DL.
have [y' [g7 [-> Sy Dy X7]]] := tf_constant_spec (Tensor y) g6.
move/X7 in DL; move/X7 in DtA'.
case: (n =P n') => [e|/eqP ne]; last first.
  by rewrite tf_matmul_mismatch // StA' SA Sy.
case: _ / e in y Sy Dy *; rewrite castmx_id.
have Sty : (static_shape tA').2 = (static_shape y').1 by rewrite StA' SA Sy.
have [tA_y [g8 [-> Sb Db X8]]] := tf_matmul_spec Sty DtA' Dy.
move/X8 in DL.
have SL1 : (static_shape L).1 = (static_shape L).2 by rewrite SL.
have SLb : (static_shape L).1 = (static_shape tA_y).1.
  by rewrite SL SM Sb StA StA'.
have [sol1 [g9 [-> S1 D1 X9]]] := tf_matrix_solve_spec SL1 SLb DL Db.
move/X9 in DL.
have [tL [g10 [-> StL DtL X10]]] := tf_transpose_spec DL.
move/X10 in D1.
have StL1 : (static_shape tL).1 = (static_shape tL).2 by rewrite StL SL1.
have StL2 : (static_shape tL).1 = (static_shape sol1).1.
  by rewrite StL S1 SL1.
have [sol2 [g11 [-> _ D2 _]]] := tf_matrix_solve_spec StL1 StL2 DtL D1.
rewrite (sess_run_spec D2) /chol_solve /= matmul_kernelE /= cholesky_kernelE.
case: (cholesky _) => [F|//] /=.
rewrite matmul_kernelE /= matrix_solve_kernelE.
case: (matrix_solve F _) => [w|//] /=.
by rewrite matrix_solve_kernelE; case: (matrix_solve _ w).
Qed.

Lemma fit_inE g n k m (A : 'M[R]_(n, k)) (y : 'M[R]_(n, m)) :
  fit_in g (Tensor A) (Tensor y) = to_tensor (chol_solve A y).
Proof.
rewrite fit_in_run; case: (n =P n) => [e|]; last by case.
by rewrite castmx_id.
Qed.

Lemma fit_in_mismatch g (A y : tensor) :
  nrows A != nrows y -> fit_in g A y = Error DimensionMismatchError.
Proof.
case: A y => [n k A] [n' m y] /= ne; rewrite fit_in_run.
by case: (n =P n') ne => // ->; rewrite eqxx.
Qed.

Lemma fit_in_graph g1 g2 A y : fit_in g1 A y = fit_in g2 A y.
Proof. by case: A y => [n k A] [n' m y]; rewrite !fit_in_run. Qed.


(** ** The Cholesky recursion *)

Lemma choleskyS n (M : 'M[R]_(1 + n)) :
  cholesky M =
  if M 0 0 <= 0 then None
  else
    let l := Num.sqrt (M 0 0) in
    let c := l^-1 *: dlsubmx M in
    if cholesky (drsubmx M - c *m c^T) is Some L'
    then Some (block_mx l%:M 0 c L')
    else None.
Proof. by []. Qed.

Lemma ulsubmx11 n (M : 'M[R]_(1 + n)) : ulsubmx M = (M 0 0)%:M.
Proof. by rewrite [LHS]mx11_scalar !mxE !lshift0. Qed.

Lemma symmetric_blocks n (M : 'M[R]_(1 + n)) :
  symmetric M -> ursubmx M = (dlsubmx M)^T /\ symmetric (drsubmx M).
Proof.
rewrite /symmetric -{1 2}(submxK M) tr_block_mx.
by move=> /eq_block_mx [_ -> _ ->].
Qed.

Lemma symmetric_schur n (C : 'M[R]_n) (c : 'cV[R]_n) :
  symmetric C -> symmetric (C - c *m c^T).
Proof. by rewrite /symmetric linearB /= trmx_mul trmxK => ->. Qed.

Section Factor.

Variables (n : nat) (l : R) (c : 'cV[R]_n) (L' : 'M[R]_n).

Lemma factor_trig :
  is_trig_mx L' -> is_trig_mx (block_mx l%:M 0 c L' : 'M[R]_(1 + n)).
Proof. by move=> tL; rewrite is_trig_block_mx // eqxx scalar_mx_is_trig. Qed.

Lemma factor_diagonal :
  0 < l -> positive_diagonal L' ->
  positive_diagonal (block_mx l%:M 0 c L' : 'M[R]_(1 + n)).
Proof.
move=> l_gt0 posL' i; case: (split_ordP i) => j ->.
  by rewrite block_mxEul mxE eqxx.
by rewrite block_mxEdr.
Qed.

Lemma factor_mul :
  (block_mx l%:M 0 c L' : 'M[R]_(1 + n)) *m (block_mx l%:M 0 c L')^T =
  block_mx (l * l)%:M (l *: c^T) (l *: c) (c *m c^T + L' *m L'^T).
Proof.
rewrite tr_block_mx mulmx_block !trmx0 !mulmx0 !mul0mx !addr0 tr_scalar_mx.
by rewrite -scalar_mxM mul_scalar_mx mul_mx_scalar.
Qed.

End Factor.

Lemma cholesky_sound n (M L : 'M[R]_n) :
  symmetric M -> cholesky M = Some L ->
  [/\ is_trig_mx L, positive_diagonal L & L *m L^T = M].
Proof.
elim: n M L => [|n IH] M L symM.
  move=> _; split; [by rewrite [L]flatmx0 mx0_is_trig | by case |].
  by rewrite [LHS]flatmx0 [RHS]flatmx0.
rewrite choleskyS; case: ifP => // /negbT; rewrite -ltNge => a_gt0.
cbv zeta; set l := Num.sqrt _; set c := _ *: _.
case E: (cholesky _) => [L'|//] [<-].
have [ur_dl sym_dr] := symmetric_blocks symM.
have [trigL' posL' L'L'] := IH _ _ (symmetric_schur c sym_dr) E.
have l_gt0 : 0 < l by rewrite sqrtr_gt0.
split; [exact: factor_trig | exact: factor_diagonal |].
rewrite factor_mul L'L' addrC subrK -[RHS](@submxK _ 1 n 1 n M) ulsubmx11 ur_dl.
have lc : l *: c = dlsubmx (M : 'M_(1 + n)) by rewrite scalerA divff ?scale1r // gt_eqF.
by rewrite -linearZ /= lc -expr2 sqr_sqrtr ?ltW.
Qed.

(** ** Positive definite matrices *)

Lemma posdef_pivot n (M : 'M[R]_(1 + n)) : positive_definite M -> 0 < M 0 0.
Proof.
move=> /(_ (delta_mx 0 0)); rewrite /quad_form trmx_delta -rowE -colE !mxE.
apply; apply/eqP => /matrixP /(_ 0 0) /eqP.
by rewrite !mxE !eqxx oner_eq0.
Qed.

Section Schur.

Variables (n : nat) (M : 'M[R]_(1 + n)).
Hypothesis symM : symmetric M.
Hypothesis posM : positive_definite M.

Lemma schur_outer (c := (Num.sqrt (M 0 0))^-1 *: dlsubmx M) :
  c *m c^T = (M 0 0)^-1 *: (dlsubmx M *m (dlsubmx M)^T).
Proof.
have a_gt0 : 0 < M 0 0 by exact: posdef_pivot.
rewrite /c linearZ /= -scalemxAl -scalemxAr scalerA -invfM -expr2.
by rewrite sqr_sqrtr // ltW.
Qed.

Lemma posdef_schur (c := (Num.sqrt (M 0 0))^-1 *: dlsubmx M) :
  positive_definite (drsubmx M - c *m c^T).
Proof.
have a_gt0 : 0 < M 0 0 by exact: posdef_pivot.
have [ur_b symC] := symmetric_blocks symM.
move=> v v_neq0; rewrite /c schur_outer.
set a := M 0 0 in a_gt0 *; set b := dlsubmx M in ur_b *.
set C := drsubmx M in symC *.
pose beta := (b^T *m v) 0 0.
have bv : b^T *m v = beta%:M by rewrite [LHS]mx11_scalar.
have vb : v^T *m b = beta%:M.
  by rewrite -[LHS]trmxK trmx_mul trmxK bv tr_scalar_mx.
pose w : 'cV[R]_(1 + n) := col_mx (- beta / a)%:M v.
have w_neq0 : w != 0 by rewrite col_mx_eq0 negb_and v_neq0 orbT.
have := posM w_neq0.
rewrite /quad_form -{1}(submxK M) ulsubmx11 ur_b -/a -/b -/C.
rewrite tr_col_mx tr_scalar_mx mul_row_block mul_row_col.
rewrite vb -scalar_mxM divfK ?gt_eqF // -raddfD /= addNr raddf0 mul0mx add0r.
rewrite mulmxDl -[_%:M *m _ *m _]mulmxA bv -scalar_mxM.
have -> : v^T *m (C - a^-1 *: (b *m b^T)) *m v =
          v^T *m C *m v - (beta * beta / a)%:M.
  rewrite mulmxBr mulmxBl -scalemxAr -scalemxAl.
  rewrite [v^T *m (b *m _)]mulmxA vb -[_%:M *m _ *m _]mulmxA bv.
  by rewrite -scalar_mxM -mul_scalar_mx -scalar_mxM mulrC.
by rewrite !mxE eqxx !mulr1n mulrAC mulNr addrC mulNr.
Qed.

End Schur.

Lemma cholesky_complete n (M : 'M[R]_n) :
  symmetric M -> positive_definite M -> exists L, cholesky M = Some L.
Proof.
elim: n M => [|n IH] M symM posM; first by exists 0.
have a_gt0 : 0 < M 0 0 by exact: (@posdef_pivot n).
have [_ symC] := symmetric_blocks symM.
rewrite choleskyS leNgt a_gt0 /=.
set c := _ *: _.
have [L' ->] := IH _ (symmetric_schur c symC) (posdef_schur symM posM).
by eexists.
Qed.

Lemma trig_diagonal_unit n (L : 'M[R]_n) :
  is_trig_mx L -> positive_diagonal L -> L \in unitmx.
Proof.
move=> trigL posL; rewrite unitmxE unitfE det_trig // gt_eqF //.
exact: prodr_gt0.
Qed.

(** ** The normal matrix *)

Lemma gram_symmetric n k (A : 'M[R]_(n, k)) : symmetric (A^T *m A).
Proof. by rewrite /symmetric trmx_mul trmxK. Qed.

Lemma gram_quad_form n k (A : 'M[R]_(n, k)) (v : 'cV[R]_k) :
  quad_form (A^T *m A) v = \sum_i (A *m v) i 0 ^+ 2.
Proof.
rewrite /quad_form mulmxA -trmx_mul -mulmxA mxE.
by apply: eq_bigr => i _; rewrite mxE expr2.
Qed.

Lemma gram_posdef n k (A : 'M[R]_(n, k)) :
  full_column_rank A -> positive_definite (A^T *m A).
Proof.
rewrite /full_column_rank -mxrank_tr => freeA v v_neq0.
have sq_ge0 (i : 'I_n) : true -> 0 <= (A *m v) i 0 ^+ 2 by rewrite sqr_ge0.
rewrite gram_quad_form lt0r sumr_ge0 // andbT psumr_eq0 //.
apply: contra v_neq0 => /allP Av0.
rewrite -trmx_eq0 -(mulmx_free_eq0 _ freeA) -trmx_mul trmx_eq0.
apply/eqP/matrixP => i j; rewrite ord1 [RHS]mxE.
by have := Av0 i (mem_index_enum _); rewrite expf_eq0 /= => /eqP.
Qed.

Lemma gram_unit_rank n k (A : 'M[R]_(n, k)) :
  A^T *m A \in unitmx -> full_column_rank A.
Proof.
move=> /mxrank_unit rkM; rewrite /full_column_rank eqn_leq rank_leq_col /=.
by rewrite -{1}rkM mxrankM_maxr.
Qed.

Lemma cholesky_gram n k (A : 'M[R]_(n, k)) :
  reflect (exists L, cholesky (A^T *m A) = Some L) (full_column_rank A).
Proof.
apply: (iffP idP) => [rkA|[L chol]].
  exact: cholesky_complete (gram_symmetric A) (gram_posdef rkA).
have [trigL posL LLt] := cholesky_sound (gram_symmetric A) chol.
apply: gram_unit_rank; rewrite -LLt unitmx_mul unitmx_tr.
by rewrite trig_diagonal_unit.
Qed.

(** ** The recursion on small matrices *)

Lemma cholesky_pivot_pos n (M : 'M[R]_(1 + n))
    (c := (Num.sqrt (M 0 0))^-1 *: dlsubmx M) :
  0 < M 0 0 ->
  cholesky M = if cholesky (drsubmx M - c *m c^T) is Some L'
               then Some (block_mx (Num.sqrt (M 0 0))%:M 0 c L')
               else None.
Proof. by move=> a_gt0; rewrite choleskyS leNgt a_gt0. Qed.

Lemma cholesky_pivot_nonpos n (M : 'M[R]_(1 + n)) :
  M 0 0 <= 0 -> cholesky M = None.
Proof. by move=> a_le0; rewrite choleskyS a_le0. Qed.

Lemma block_pivot n (a : R) ur dl (dr : 'M[R]_n) :
  (block_mx a%:M ur dl dr : 'M[R]_(1 + n)) 0 0 = a.
Proof.
have /(congr1 (fun X : 'M[R]_1 => X 0 0)) := ulsubmx11 (block_mx a%:M ur dl dr).
by rewrite block_mxKul !mxE eqxx !mulr1n.
Qed.

Lemma cholesky_1x1 (a : R) :
  0 < a -> cholesky (a%:M : 'M[R]_1) = Some (Num.sqrt a)%:M.
Proof.
move=> a_gt0; rewrite (@cholesky_pivot_pos 0) mxE eqxx mulr1n //=.
congr Some; apply/matrixP => i j; rewrite !ord1.
by rewrite block_pivot mxE eqxx mulr1n.
Qed.

Example cholesky_2x2 :
  cholesky (block_mx 4%:M 2%:M 2%:M 5%:M : 'M[R]_(1 + 1)) =
  Some (block_mx 2%:M 0 1%:M 2%:M).
Proof.
have sqrt4 : Num.sqrt 4 = 2 :> R.
  by rewrite -[4]/(2 * 2)%:R natrM -expr2 sqrtr_sqr normr_nat.
rewrite cholesky_pivot_pos block_pivot ?ltr0n // block_mxKdl block_mxKdr sqrt4.
have -> : 2^-1 *: (2%:M : 'M[R]_1) = 1%:M.
  by rewrite -mul_scalar_mx -scalar_mxM mulVf // pnatr_eq0.
have -> : 5%:M - 1%:M *m (1%:M)^T = 4%:M :> 'M[R]_1.
  rewrite trmx1 mulmx1 -raddfB /=; congr (_%:M).
  by rewrite -[5]/(1 + 4)%:R natrD addrC addKr.
by rewrite cholesky_1x1 ?ltr0n // sqrt4.
Qed.

Example cholesky_not_positive :
  cholesky (block_mx 1%:M 1%:M 1%:M 1%:M : 'M[R]_(1 + 1)) = None.
Proof.
rewrite cholesky_pivot_pos block_pivot ?ltr01 // block_mxKdl block_mxKdr.
rewrite sqrtr1 invr1 scale1r.
have -> : 1%:M - 1%:M *m (1%:M)^T = 0 :> 'M[R]_1.
  by rewrite trmx1 mulmx1 subrr.
by rewrite (@cholesky_pivot_nonpos 0) // mxE.
Qed.

(** ** The square solve *)

Lemma matrix_solve_unit n m (A : 'M[R]_n) (B : 'M[R]_(n, m)) :
  A \in unitmx -> matrix_solve A B = Ok (invmx A *m B).
Proof. by rewrite /matrix_solve => ->. Qed.

Lemma matrix_solve_singular n m (A : 'M[R]_n) (B : 'M[R]_(n, m)) :
  A \notin unitmx -> matrix_solve A B = Error SingularSystemError.
Proof. by rewrite /matrix_solve => /negPf ->. Qed.

Lemma matrix_solve_ok n m (A : 'M[R]_n) (B X : 'M[R]_(n, m)) :
  matrix_solve A B = Ok X -> A \in unitmx /\ A *m X = B.
Proof.
by rewrite /matrix_solve; case: ifP => // uA [<-]; rewrite mulKVmx.
Qed.

Lemma matrix_solve_uniq n m (A : 'M[R]_n) (B X : 'M[R]_(n, m)) :
  A \in unitmx -> A *m X = B -> matrix_solve A B = Ok X.
Proof. by move=> uA <-; rewrite matrix_solve_unit // mulKmx. Qed.

(** ** Row-wise substitution *)

Section Forward.

Variables (n : nat) (L : 'M[R]_n) (b : 'cV[R]_n).

Lemma forward_rows_stable k (i : 'I_n) :
  (i < k)%N -> forward_rows L b k i 0 = forward_rows L b i.+1 i 0.
Proof.
elim: k => [//|k IH]; rewrite ltnS leq_eqVlt => /predU1P[eq_ik|lt_ik].
  by rewrite eq_ik.
by rewrite [LHS]/= mxE ltn_eqF // IH.
Qed.

Lemma forward_rows_row k (i : 'I_n) :
  (i < k)%N ->
  forward_rows L b k i 0 =
  (b i 0 - \sum_(j < n | (j < i)%N) L i j * forward_rows L b k j 0) / L i i.
Proof.
move=> lt_ik; rewrite forward_rows_stable //= mxE eqxx.
congr ((_ - _) / _); apply: eq_bigr => j lt_ji.
rewrite [in RHS]forward_rows_stable ?(ltn_trans lt_ji) //.
case: (i : nat) lt_ji => [//|i' lt_ji].
by rewrite forward_rows_stable.
Qed.

Lemma forwardSolve_correct :
  is_trig_mx L -> (forall i, L i i != 0) -> L *m forwardSolve L b = b.
Proof.
move=> /is_trig_mxP trigL diagL; apply/matrixP => i j; rewrite ord1 mxE.
rewrite (bigID (fun j : 'I_n => (j < i)%N)) /= [X in _ + X](bigD1 i) ?ltnn //=.
rewrite [X in _ + (_ + X)]big1 => [k /andP[le_ik ne_ki]|].
  by rewrite trigL ?mul0r // ltn_neqAle eq_sym ne_ki leqNgt.
rewrite addr0 /forwardSolve [in X in _ + X]forward_rows_row //.
by rewrite mulrC divfK // addrC subrK.
Qed.

End Forward.

Section Back.

Variables (n : nat) (U : 'M[R]_n) (z : 'cV[R]_n).

Lemma back_rows_stable k (i : 'I_n) :
  (k <= n)%N -> (n - k <= i)%N ->
  back_rows U z k i 0 = back_rows U z (n - i) i 0.
Proof.
elim: k => [_|k IH lt_kn]; first by rewrite subn0 leqNgt ltn_ord.
rewrite leq_eqVlt => /predU1P[eq_i|lt_i].
  by rewrite -eq_i subKn.
by rewrite [LHS]/= mxE gtn_eqF // IH ?(ltnW lt_kn) // -subnSK.
Qed.

Lemma backSolve_row (i : 'I_n) :
  backSolve U z i 0 =
  (z i 0 - \sum_(j < n | (i < j)%N) U i j * backSolve U z j 0) / U i i.
Proof.
rewrite /backSolve back_rows_stable ?subnn // -subnSK //= mxE.
rewrite subnSK // subKn ?(ltnW (ltn_ord i)) // eqxx.
congr ((_ - _) / _); apply: eq_bigr => j lt_ij.
rewrite [in RHS]back_rows_stable ?subnn //.
by rewrite back_rows_stable ?leq_subr // subKn.
Qed.

Lemma backSolve_correct :
  is_trig_mx U^T -> (forall i, U i i != 0) -> U *m backSolve U z = z.
Proof.
move=> /is_trig_mxP trigU diagU; apply/matrixP => i j; rewrite ord1 mxE.
rewrite (bigID (fun j : 'I_n => (i < j)%N)) /= [X in _ + X](bigD1 i) ?ltnn //=.
rewrite [X in _ + (_ + X)]big1 => [k /andP[le_ki ne_ki]|].
  have lt_ki : (k < i)%N by rewrite ltn_neqAle ne_ki leqNgt.
  by have := trigU _ _ lt_ki; rewrite mxE => ->; rewrite mul0r.
rewrite addr0 [in X in _ + X]backSolve_row.
by rewrite mulrC divfK // addrC subrK.
Qed.

End Back.

(** ** The two solves against the Cholesky factor *)

Lemma chol_solve_normal n k m (A : 'M[R]_(n, k)) (y : 'M[R]_(n, m)) x :
  chol_solve A y = Ok x -> A^T *m A *m x = A^T *m y.
Proof.
rewrite /chol_solve; case chol: (cholesky _) => [L|//].
have [_ _ <-] := cholesky_sound (gram_symmetric A) chol.
case solve1: (matrix_solve L _) => [w|//] /matrix_solve_ok [_ Ltx].
by have [_ <-] := matrix_solve_ok solve1; rewrite -mulmxA Ltx.
Qed.

Lemma chol_solve_full_rank n k m (A : 'M[R]_(n, k)) (y : 'M[R]_(n, m)) :
  full_column_rank A -> exists x, chol_solve A y = Ok x.
Proof.
move=> /cholesky_gram [L chol]; rewrite /chol_solve chol.
have [trigL posL _] := cholesky_sound (gram_symmetric A) chol.
have unitL := trig_diagonal_unit trigL posL.
rewrite matrix_solve_unit // matrix_solve_unit ?unitmx_tr //.
by eexists.
Qed.

Lemma chol_solve_deficient n k m (A : 'M[R]_(n, k)) (y : 'M[R]_(n, m)) :
  ~~ full_column_rank A ->
  cholesky (A^T *m A) = None /\
  chol_solve A y = Error NotPositiveDefiniteError.
Proof.
move=> rkA; rewrite /chol_solve; case chol: (cholesky _) => [L|//].
by case/negP: rkA; apply/cholesky_gram; exists L.
Qed.

Lemma gram_unit n k (A : 'M[R]_(n, k)) :
  full_column_rank A -> A^T *m A \in unitmx.
Proof.
move=> /cholesky_gram [L chol].
have [trigL posL <-] := cholesky_sound (gram_symmetric A) chol.
by rewrite unitmx_mul unitmx_tr trig_diagonal_unit.
Qed.

(** ** Design matrices *)

Lemma identical_columns_rank n k (A : 'M[R]_(n, k)) (j1 j2 : 'I_k) :
  j1 != j2 -> col j1 A = col j2 A -> ~~ full_column_rank A.
Proof.
move=> ne_j eq_col; rewrite /full_column_rank -mxrank_tr.
apply/negP => freeA.
pose v : 'cV[R]_k := delta_mx j1 0 - delta_mx j2 0.
have Av0 : v^T *m A^T == 0.
  by rewrite -trmx_mul trmx_eq0 mulmxBr -!colE eq_col subrr.
move: Av0; rewrite (mulmx_free_eq0 _ freeA) trmx_eq0 => /eqP /matrixP /(_ j1 0).
rewrite !mxE !eqxx (negPf ne_j) subr0 => /eqP.
by rewrite oner_eq0.
Qed.

Lemma design_matrix_rank n (x : 'cV[R]_n) :
  (exists i j, x i 0 != x j 0) -> full_column_rank (design_matrix x).
Proof.
move=> [i [j ne_x]]; rewrite /full_column_rank -mxrank_tr.
rewrite -[_ == _]/(row_free _) -kermx_eq0; apply/rowV0P => v /sub_kermxP.
rewrite -[v]hsubmxK /design_matrix tr_row_mx mul_row_col => vA0.
have eq0 (r : 'I_n) : lsubmx v 0 0 * x r 0 + rsubmx v 0 0 = 0.
  move/matrixP/(_ 0 r): vA0; rewrite !mxE !big_ord1 !mxE => <-.
  by rewrite mulr1.
have s0 : lsubmx v 0 0 = 0.
  have /eqP : lsubmx v 0 0 * x i 0 = lsubmx v 0 0 * x j 0.
    by apply: (addIr (rsubmx v 0 0)); rewrite !eq0.
  by rewrite -subr_eq0 -mulrBr mulf_eq0 subr_eq0 (negPf ne_x) orbF => /eqP.
have t0 : rsubmx v 0 0 = 0 by have := eq0 i; rewrite s0 mul0r add0r.
rewrite [lsubmx v]mx11_scalar [rsubmx v]mx11_scalar s0 t0.
by rewrite !raddf0 row_mx0.
Qed.

Lemma x_vals_inj : injective (fun i => x_vals i 0).
Proof.
move=> i j; rewrite !mxE => /(mulIf _) eq_ij; apply: val_inj; apply/eqP.
rewrite -(eqr_nat R); apply/eqP; apply: (mulfI _ (eq_ij _)).
  by rewrite pnatr_eq0.
by rewrite invr_eq0 pnatr_eq0.
Qed.

Lemma x_vals_distinct : exists i j, x_vals i 0 != x_vals j 0.
Proof. by exists 0, 1; apply/eqP => /x_vals_inj. Qed.

(** One observation of one feature: the script divides [y] by [a], with
    [a] itself as the only pivot of both solves. *)
Lemma fit_1x1 (a y : R) :
  0 < a ->
  cholesky ((a%:M : 'M[R]_1)^T *m a%:M) = Some a%:M /\
  fit (Tensor (a%:M : 'M[R]_1)) (Tensor (y%:M : 'M[R]_1))
  = Ok (Tensor ((y / a)%:M : 'M[R]_1)).
Proof.
move=> a_gt0; have a_neq0 : a != 0 by rewrite gt_eqF.
have unit_a : (a%:M : 'M[R]_1) \in unitmx by rewrite unitmxE det_scalar1 unitfE.
have chol : cholesky ((a%:M : 'M[R]_1)^T *m a%:M) = Some a%:M.
  rewrite tr_scalar_mx -scalar_mxM -expr2 cholesky_1x1 ?exprn_gt0 //.
  by rewrite sqrtr_sqr gtr0_norm.
split=> //; rewrite /fit fit_inE /chol_solve chol.
rewrite !matrix_solve_unit ?tr_scalar_mx // invmx_scalar -!scalar_mxM.
by rewrite mulKf // mulrC.
Qed.

(** ** Properties of the script *)





(** C5. When [A] and [y] do not have the same number of rows the script
    fails with [DimensionMismatchError]; nothing is returned. *)
Theorem fit_dimension_mismatch (A y : tensor) :
  nrows A != nrows y -> fit A y = Error DimensionMismatchError.
Proof. exact: fit_in_mismatch. Qed.

Lemma trig_unit_diagonal n (L : 'M[R]_n) :
  is_trig_mx L -> (L \in unitmx) = ~~ [exists i, L i i == 0].
Proof.
move=> trigL; rewrite unitmxE unitfE det_trig // negb_exists.
by apply/prodf_neq0/forallP => [nz i|nz i _]; exact: nz.
Qed.


(** C7. The result of the script does not depend on the graph the cells are
    run on: two runs on the same arrays return the same thing. *)
Theorem fit_deterministic (g1 g2 : graph) (A y : tensor) :
  fit_in g1 A y = fit_in g2 A y.
Proof. exact: fit_in_graph. Qed.

Lemma design_matrix_line n (x : 'cV[R]_n) (a c : R) :
  design_matrix x *m col_mx a%:M c%:M = a *: x + const_mx c.
Proof.
rewrite /design_matrix mul_row_col !mul_mx_scalar; congr (_ + _).
by apply/matrixP => i j; rewrite !mxE mulr1.
Qed.

Lemma getitem_col_mx (a c : R) :
  let sol := Tensor (col_mx a%:M c%:M : 'cV[R]_(1 + 1)) in
  getitem sol 0 0 = Some a /\ getitem sol 1 0 = Some c.
Proof.
have row0 (lt02 : (0 < 1 + 1)%N) : Ordinal lt02 = lshift 1 (0 : 'I_1).
  exact: val_inj.
have row1 (lt12 : (1 < 1 + 1)%N) : Ordinal lt12 = rshift 1 (0 : 'I_1).
  exact: val_inj.
rewrite /getitem /= !insubT /=; split; congr Some.
  by rewrite -[X in col_mx _ _ X]/(Ordinal _) row0 col_mxEu mxE mulr1n.
by rewrite -[X in col_mx _ _ X]/(Ordinal _) row1 col_mxEd mxE mulr1n.
Qed.




(** ** Further properties of the script *)

Lemma chol_solve_closed n k m (A : 'M[R]_(n, k)) (y : 'M[R]_(n, m)) :
  full_column_rank A ->
  chol_solve A y = Ok (invmx (A^T *m A) *m (A^T *m y)).
Proof.
move=> rkA; have [x solve] := chol_solve_full_rank y rkA.
by rewrite solve -(chol_solve_normal solve) mulKmx // gram_unit.
Qed.


Lemma sum_squaresE n (v : 'cV[R]_n) : sum_squares v = (v^T *m v) 0 0.
Proof. by rewrite mxE; apply: eq_bigr => i _; rewrite mxE expr2. Qed.

Lemma sum_squares_ge0 n (v : 'cV[R]_n) : 0 <= sum_squares v.
Proof. by apply: sumr_ge0 => i _; rewrite sqr_ge0. Qed.

Lemma sum_squares_eq0 n (v : 'cV[R]_n) : sum_squares v = 0 -> v = 0.
Proof.
have sq_ge0 (i : 'I_n) : true -> 0 <= v i 0 ^+ 2 by rewrite sqr_ge0.
move=> /eqP; rewrite psumr_eq0 // => /allP v0.
apply/matrixP => i j; rewrite ord1 [RHS]mxE.
by have := v0 i (mem_index_enum _); rewrite expf_eq0 /= => /eqP.
Qed.

Lemma sum_squaresD n (u v : 'cV[R]_n) :
  u^T *m v = 0 -> sum_squares (u + v) = sum_squares u + sum_squares v.
Proof.
move=> uv0; rewrite !sum_squaresE [(u + v)^T]raddfD /= mulmxDl !mulmxDr uv0.
have -> : v^T *m u = 0 by rewrite -[LHS]trmxK trmx_mul trmxK uv0 trmx0.
by rewrite addr0 add0r mxE.
Qed.

Lemma full_rank_inj n k m (A : 'M[R]_(n, k)) (u : 'M[R]_(k, m)) :
  full_column_rank A -> A *m u = 0 -> u = 0.
Proof.
rewrite /full_column_rank -mxrank_tr => freeA Au0; apply/eqP.
by rewrite -trmx_eq0 -(mulmx_free_eq0 _ freeA) -trmx_mul Au0 trmx0.
Qed.




Lemma chol_solve_kinds n k m (A : 'M[R]_(n, k)) (y : 'M[R]_(n, m)) :
  (exists x, chol_solve A y = Ok x) \/
  chol_solve A y = Error NotPositiveDefiniteError.
Proof.
have [rkA|rkA] := boolP (full_column_rank A); [left | right].
  exact: chol_solve_full_rank.
by have [] := chol_solve_deficient y rkA.
Qed.


(** X6. When the script returns, [A] and [y] have the same number of rows
    and the result has one row per column of [A] and one column per column
    of [y]. *)
Theorem fit_shape (A y sol : tensor) :
  fit A y = Ok sol ->
  [/\ nrows A = nrows y, nrows sol = ncols A & ncols sol = ncols y].
Proof.
case: A y => [n k A] [n' m y]; rewrite /fit fit_in_run.
case: (n =P n') => [e|//]; case: (chol_solve _ _) => [x|//] [<-].
by split.
Qed.


Lemma trig_blocks n (L : 'M[R]_(1 + n)) :
  is_trig_mx L -> positive_diagonal L ->
  [/\ L = block_mx (L 0 0)%:M 0 (dlsubmx L) (drsubmx L),
      is_trig_mx (drsubmx L) & positive_diagonal (drsubmx L)].
Proof.
move=> trigL posL.
have := trigL; rewrite -{1}(submxK L) is_trig_block_mx //.
move=> /and3P[/eqP ur0 _ trig_dr].
split=> // [|i]; first by rewrite -{1}(submxK L) ur0 ulsubmx11.
by rewrite !mxE; exact: posL.
Qed.

Lemma cholesky_factor n (L : 'M[R]_n) :
  is_trig_mx L -> positive_diagonal L -> cholesky (L *m L^T) = Some L.
Proof.
elim: n L => [|n IH] L trigL posL; first by rewrite [L]flatmx0.
have [eqL trig_dr pos_dr] := trig_blocks trigL posL.
have l_gt0 : 0 < L 0 0 by exact: posL.
rewrite {1 2 3}eqL factor_mul cholesky_pivot_pos block_pivot ?mulr_gt0 //.
rewrite block_mxKdl block_mxKdr -expr2 sqrtr_sqr gtr0_norm //.
by rewrite scalerA mulVf ?gt_eqF // scale1r addrC addKr IH // -eqL.
Qed.


Lemma gram_semidefinite n k (A : 'M[R]_(n, k)) (v : 'cV[R]_k) :
  0 <= quad_form (A^T *m A) v.
Proof. by rewrite gram_quad_form; apply: sumr_ge0 => i _; rewrite sqr_ge0. Qed.

Lemma cholesky_posdef n (M L : 'M[R]_n) :
  symmetric M -> cholesky M = Some L -> positive_definite M.
Proof.
move=> symM chol; have [trigL posL <-] := cholesky_sound symM chol.
have unitL := trig_diagonal_unit trigL posL.
rewrite -{1}[L]trmxK; apply: gram_posdef.
by rewrite /full_column_rank mxrank_unit ?unitmx_tr.
Qed.



(** ** The fitted line of cell 17 *)

Lemma best_fitE (a b : R) xs : best_fit a b xs = [seq a * i + b | i <- xs].
Proof.
rewrite /best_fit -[RHS]cat0s; elim: xs [::] => [|i xs IH] fitted /=.
  by rewrite cats0.
by rewrite IH cat_rcons.
Qed.

Lemma nth_best_fit n (a b : R) (x : 'cV[R]_n) (i : 'I_n) :
  nth 0 (best_fit a b (elements x)) i = a * x i 0 + b.
Proof.
rewrite best_fitE /elements -map_comp (nth_map i).
  by rewrite size_enum_ord.
by rewrite /= nth_ord_enum.
Qed.

(** X11. The list [best_fit] built by the loop of cell 17 holds, in order,
    the entries of the design matrix times the coefficient column
    [(slope, y_intercept)]: one fitted value per observation. *)
Theorem best_fit_is_product n (a b : R) (x : 'cV[R]_n) :
  best_fit a b (elements x) =
  elements (design_matrix x *m col_mx a%:M b%:M) /\
  size (best_fit a b (elements x)) = n.
Proof.
rewrite best_fitE /elements -map_comp size_map size_enum_ord; split=> //.
apply: eq_map => i /=.
by rewrite design_matrix_line !mxE.
Qed.

Lemma dot_product n (u v : 'cV[R]_n) :
  u^T *m v = (\sum_i u i 0 * v i 0)%:M.
Proof.
rewrite [LHS]mx11_scalar mxE; congr (_%:M).
by apply: eq_bigr => i _; rewrite mxE.
Qed.

Lemma column_pair (s : 'cV[R]_(1 + 1)) :
  s = col_mx (s 0 0)%:M (s (rshift 1 0) 0)%:M.
Proof.
rewrite -[LHS]vsubmxK [usubmx s]mx11_scalar [dsubmx s]mx11_scalar !mxE.
by rewrite lshift0.
Qed.

(** The two scalar normal equations of a straight-line fit. *)
Lemma line_normal_equations n (x y : 'cV[R]_n) (s : 'cV[R]_(1 + 1))
    (a := s 0 0) (b := s (rshift 1 0) 0) :
  chol_solve (design_matrix x) y = Ok s ->
  \sum_i x i 0 * (y i 0 - (a * x i 0 + b)) = 0 /\
  \sum_i (y i 0 - (a * x i 0 + b)) = 0.
Proof.
move=> /chol_solve_normal /eqP; rewrite eq_sym -subr_eq0 -mulmxA -mulmxBr.
rewrite [X in _ - _ *m X]column_pair design_matrix_line -/a -/b.
rewrite /design_matrix tr_row_mx mul_col_mx !dot_product => /eqP.
rewrite -[RHS]col_mx0 => /eq_col_mx [/(congr1 (fun X : 'M[R]_1 => X 0 0))].
move=> + /(congr1 (fun X : 'M[R]_1 => X 0 0)).
rewrite !mxE !eqxx !mulr1n => sum_x sum_1; split.
  by rewrite -[RHS]sum_x; apply: eq_bigr => i _; rewrite !mxE.
by rewrite -[RHS]sum_1; apply: eq_bigr => i _; rewrite !mxE mul1r.
Qed.

Lemma line_solution n (x y : 'cV[R]_n) :
  (exists i j, x i 0 != x j 0) ->
  exists a b : R,
    let sol := Tensor (col_mx a%:M b%:M : 'cV[R]_(1 + 1)) in
    [/\ fit (Tensor (design_matrix x)) (Tensor y) = Ok sol,
        slope sol = Some a /\ y_intercept sol = Some b,
        \sum_i x i 0 * (y i 0 - (a * x i 0 + b)) = 0
      & \sum_i (y i 0 - (a * x i 0 + b)) = 0].
Proof.
move=> /design_matrix_rank rkA; have [s solve] := chol_solve_full_rank y rkA.
have [slope_s intercept_s] := getitem_col_mx (s 0 0) (s (rshift 1 0) 0).
have [sum_x sum_1] := line_normal_equations solve.
exists (s 0 0), (s (rshift 1 0) 0); split=> //.
by rewrite -column_pair /fit fit_inE solve.
Qed.




(** ** The graph after the cells *)

Lemma extends_trans g1 g2 g3 : extends g1 g2 -> extends g2 g3 -> extends g1 g3.
Proof. by move=> X12 X23 t v /X12 /X23. Qed.

(** X15. The cells only add to the default graph: when they run through,
    every tensor that was in the graph before still evaluates to what it
    evaluated to, value or exception. *)
Theorem pipeline_keeps_graph (A y sol : tensor) (g g' : graph) :
  pipeline A y g = Ok (sol, g') ->
  forall (t : tf_tensor) (v : result tensor),
    (node_id t < size g)%N ->
    fetch (eval_graph g) (node_id t) = v ->
    fetch (eval_graph g') (node_id t) = v.
Proof.
case: A y => [n k A] [n' m y]; rewrite /pipeline /bind.
have [A_t [g1 [-> SA DA X1]]] := tf_constant_spec (Tensor A) g.
have [y_t [g2 [-> _ _ X2]]] := tf_constant_spec (Tensor y) g1.
move/X2 in DA.
have [tA [g3 [-> StA DtA X3]]] := tf_transpose_spec DA.
move/X3 in DA.
have SAA : (static_shape tA).2 = (static_shape A_t).1 by rewrite StA SA.
have [tA_A [g4 [-> SM DM X4]]] := tf_matmul_spec SAA DtA DA.
move/X4 in DA.
have SM' : (static_shape tA_A).1 = (static_shape tA_A).2 by rewrite SM StA SA.
have [L [g5 [-> SL DL X5]]] := tf_cholesky_spec SM' DM.
move/X5 in DA.
have [tA' [g6 [-> StA' DtA' X6]]] := tf_transpose_spec DA.
move/X6 in DL.
have [y' [g7 [-> Sy Dy X7]]] := tf_constant_spec (Tensor y) g6.
move/X7 in DL; move/X7 in DtA'.
have [/eqP Sty|ne] := boolP ((static_shape tA').2 == (static_shape y').1);
  last by rewrite tf_matmul_mismatch.
have [tA_y [g8 [-> Sb Db X8]]] := tf_matmul_spec Sty DtA' Dy.
move/X8 in DL.
have SL1 : (static_shape L).1 = (static_shape L).2 by rewrite SL.
have SLb : (static_shape L).1 = (static_shape tA_y).1.
  by rewrite SL SM Sb StA StA'.
have [sol1 [g9 [-> S1 D1 X9]]] := tf_matrix_solve_spec SL1 SLb DL Db.
move/X9 in DL.
have [tL [g10 [-> StL DtL X10]]] := tf_transpose_spec DL.
move/X10 in D1.
have StL1 : (static_shape tL).1 = (static_shape tL).2 by rewrite StL SL1.
have StL2 : (static_shape tL).1 = (static_shape sol1).1.
  by rewrite StL S1 SL1.
have [sol2 [g11 [-> _ D2 X11]]] := tf_matrix_solve_spec StL1 StL2 DtL D1.
rewrite (sess_run_spec D2); case: (lift2 _ _ _) => [x|//] [_ <-] t v lt_t val_t.
have keeps : extends g g11.
  do 10![apply: extends_trans; last by eassumption].
  exact: X1.
by have [] := keeps t v (conj lt_t val_t).
Qed.

End LinearRegression.

(** ** Instances over the real algebraic numbers *)




Lemma fit_dimension_mismatch_witness :
  let A := Tensor (const_mx 0 : 'M[algR]_(100, 2)) in
  let y := Tensor (const_mx 0 : 'M[algR]_(99, 1)) in
  nrows A != nrows y /\ fit A y = Error DimensionMismatchError.
Proof.
split; first by [].
exact: (@fit_dimension_mismatch algR (Tensor (const_mx 0 : 'M[algR]_(100, 2)))
          (Tensor (const_mx 0 : 'M[algR]_(99, 1))) isT).
Defined.






(** ** Instances of the further properties *)





Lemma fit_shape_witness :
  let A := Tensor (1%:M : 'M[algR]_1) in
  let y := Tensor (1%:M : 'M[algR]_1) in
  let sol := Tensor ((1 / 1)%:M : 'M[algR]_1) in
  fit A y = Ok sol /\
  [/\ nrows A = nrows y, nrows sol = ncols A & ncols sol = ncols y].
Proof.
have [_ run] := fit_1x1 (1 : algR) ltr01.
by split; [exact: run | exact: (fit_shape run)].
Defined.






Lemma pipeline_keeps_graph_witness :
  let A := Tensor (1%:M : 'M[algR]_1) in
  let g : graph algR := [:: Const A] in
  exists sol g',
    pipeline A A g = Ok (sol, g') /\
    fetch (eval_graph g') 0 = Ok A.
Proof.
move=> A g; case run: (pipeline A A g) => [[sol g']|e].
  exists sol, g'; split=> //.
  exact: (pipeline_keeps_graph run (t := TfTensor 0 (1, 1)) isT (erefl _)).
have [_] := fit_1x1 (1 : algR) ltr01.
by rewrite /fit (fit_in_graph _ g) /fit_in -/A run.
Defined.
